(** * MEAN-QUANT: the quantitative-analysis utilities, embedded and verified

    This development embeds [src/server/utils/quantAnalysis.js] and the
    functions of the [simple-statistics] package it calls.

    Numbers.  A JavaScript number is modelled by [num]: a real number, one of
    the two infinities, or NaN.  Arithmetic on finite values is exact (the
    rounding of IEEE-754 doubles, overflow and the sign of zero are idealised
    away: a zero divisor is taken to be +0); the special values follow
    IEEE-754 / ECMAScript.  Reading an array out of range gives [undefined],
    which every use in this file coerces to NaN, so [get] returns NaN there.

    Control.  A call either returns or throws: [completion].  The only
    [throw]s reachable from the file are those of [simple-statistics]. *)

From Stdlib Require Import Reals Lra Lia ZArith List String Bool.
From Stdlib Require Import Sorted Permutation.
From Stdlib Require Import Zfloor.
Import ListNotations.

Local Open Scope string_scope.
Local Open Scope list_scope.
Local Open Scope R_scope.

(* ================================================================= *)
(** ** JavaScript numbers, arrays and completions *)

Module JS.

Inductive num : Type :=
| Fin (r : R)
| PInf
| NInf
| NaN.

(** Unary minus. *)
Definition neg (a : num) : num :=
  match a with
  | Fin r => Fin (- r)
  | PInf => NInf
  | NInf => PInf
  | NaN => NaN
  end.

(** [a + b]. *)
Definition add (a b : num) : num :=
  match a, b with
  | NaN, _ | _, NaN => NaN
  | Fin x, Fin y => Fin (x + y)
  | PInf, NInf | NInf, PInf => NaN
  | PInf, _ | _, PInf => PInf
  | NInf, _ | _, NInf => NInf
  end.

(** [a - b]. *)
Definition sub (a b : num) : num := add a (neg b).

(** [a * b]. *)
Definition mul (a b : num) : num :=
  match a, b with
  | NaN, _ | _, NaN => NaN
  | Fin x, Fin y => Fin (x * y)
  | Fin x, PInf | PInf, Fin x =>
      if Req_dec_T x 0 then NaN else if Rlt_dec 0 x then PInf else NInf
  | Fin x, NInf | NInf, Fin x =>
      if Req_dec_T x 0 then NaN else if Rlt_dec 0 x then NInf else PInf
  | PInf, PInf | NInf, NInf => PInf
  | PInf, NInf | NInf, PInf => NInf
  end.

(** [a / b]; a finite zero divisor counts as +0. *)
Definition div (a b : num) : num :=
  match a, b with
  | NaN, _ | _, NaN => NaN
  | Fin x, Fin y =>
      if Req_dec_T y 0
      then (if Req_dec_T x 0 then NaN else if Rlt_dec 0 x then PInf else NInf)
      else Fin (x / y)
  | Fin _, PInf | Fin _, NInf => Fin 0
  | PInf, PInf | PInf, NInf | NInf, PInf | NInf, NInf => NaN
  | PInf, Fin y => if Rlt_dec y 0 then NInf else PInf
  | NInf, Fin y => if Rlt_dec y 0 then PInf else NInf
  end.

(** [a < b]; false as soon as one side is NaN. *)
Definition lt (a b : num) : bool :=
  match a, b with
  | NaN, _ | _, NaN => false
  | Fin x, Fin y => if Rlt_dec x y then true else false
  | NInf, NInf => false
  | NInf, _ => true
  | _, NInf => false
  | PInf, _ => false
  | Fin _, PInf => true
  end.

(** [a > b]. *)
Definition gt (a b : num) : bool := lt b a.

(** [a === b] on numbers. *)
Definition seq (a b : num) : bool :=
  match a, b with
  | Fin x, Fin y => if Req_dec_T x y then true else false
  | PInf, PInf | NInf, NInf => true
  | _, _ => false
  end.

(** [a >= b]. *)
Definition ge (a b : num) : bool := gt a b || seq a b.

(** [Math.abs]. *)
Definition Math_abs (a : num) : num :=
  match a with
  | Fin r => Fin (Rabs r)
  | PInf | NInf => PInf
  | NaN => NaN
  end.

(** [Math.sqrt]. *)
Definition Math_sqrt (a : num) : num :=
  match a with
  | Fin r => if Rlt_dec r 0 then NaN else Fin (sqrt r)
  | PInf => PInf
  | NInf | NaN => NaN
  end.


(** Whether a real is an integer, and whether it is an odd one. *)
Definition is_integer (r : R) : bool :=
  if Req_dec_T (IZR (Zfloor r)) r then true else false.

Definition is_odd_integer (r : R) : bool :=
  is_integer r && Z.odd (Zfloor r).

(** [Math.pow(base, exponent)], after Number::exponentiate of ECMAScript. *)
Definition Math_pow (base exponent : num) : num :=
  match exponent with
  | NaN => NaN
  | Fin e =>
      if Req_dec_T e 0 then Fin 1
      else
        match base with
        | NaN => NaN
        | PInf => if Rlt_dec 0 e then PInf else Fin 0
        | NInf =>
            if Rlt_dec 0 e
            then (if is_odd_integer e then NInf else PInf)
            else Fin 0
        | Fin b =>
            if Req_dec_T b 0
            then (if Rlt_dec 0 e then Fin 0 else PInf)
            else if Rlt_dec 0 b then Fin (Rpower b e)
            else if is_integer e
                 then (if Z.odd (Zfloor e)
                       then Fin (- Rpower (- b) e)
                       else Fin (Rpower (- b) e))
                 else NaN
        end
  | PInf =>
      match base with
      | NaN => NaN
      | PInf => PInf
      | NInf => PInf
      | Fin b =>
          if Rlt_dec 1 (Rabs b) then PInf
          else if Req_dec_T (Rabs b) 1 then NaN
          else Fin 0
      end
  | NInf =>
      match base with
      | NaN => NaN
      | PInf => Fin 0
      | NInf => Fin 0
      | Fin b =>
          if Rlt_dec 1 (Rabs b) then Fin 0
          else if Req_dec_T (Rabs b) 1 then NaN
          else PInf
      end
  end.

(** [Math.floor] of a finite number, as an integer index. *)
Definition Math_floor (r : R) : Z := Zfloor r.

(** [arr.length]. *)
Definition len {A : Type} (l : list A) : Z := Z.of_nat (List.length l).

(** [arr[i]] for an integer [i]; out of range is [undefined], read as NaN. *)
Definition get (arr : list num) (i : Z) : num :=
  if (i <? 0)%Z then NaN else nth (Z.to_nat i) arr NaN.

(** [arr.slice(start, end)] with the relative-index rules of ECMAScript. *)
Definition slice {A : Type} (arr : list A) (start stop : Z) : list A :=
  let n := len arr in
  let k := if (start <? 0)%Z then Z.max (n + start) 0 else Z.min start n in
  let final := if (stop <? 0)%Z then Z.max (n + stop) 0 else Z.min stop n in
  let count := Z.max (final - k) 0 in
  firstn (Z.to_nat count) (skipn (Z.to_nat k) arr).

(** The indices visited by [for (let i = lo; i < hi; i++)]. *)
Definition range (lo hi : Z) : list Z :=
  map (fun k => (lo + Z.of_nat k)%Z) (List.seq 0 (Z.to_nat (hi - lo))).

(** [arr.reduce((a, b) => a + b, 0)]. *)
Definition reduce_add (arr : list num) : num :=
  fold_left (fun a b => add a b) arr (Fin 0).

(** [[...arr].sort((a, b) => a - b)]: an insertion sort driven by the sign
    of the comparator.  On finite numbers the comparator is a total order
    and every sorting algorithm gives this result. *)
Fixpoint sort_insert (x : num) (sorted : list num) : list num :=
  match sorted with
  | [] => [x]
  | y :: rest =>
      if lt (sub y x) (Fin 0) then y :: sort_insert x rest
      else x :: y :: rest
  end.

Definition sort_ascending (arr : list num) : list num :=
  fold_right sort_insert [] arr.

(** A call returns a value or throws an error with a name and a message. *)
Inductive completion (A : Type) : Type :=
| Normal (a : A)
| Throw (name message : string).

Arguments Normal {A} a.
Arguments Throw {A} name message.

Definition bind {A B : Type} (c : completion A) (k : A -> completion B)
  : completion B :=
  match c with
  | Normal a => k a
  | Throw n m => Throw n m
  end.

Definition throws {A : Type} (c : completion A) (name : string) : Prop :=
  exists message, c = Throw name message.

End JS.

Import JS.

Notation "x <- c ;; k" := (bind c (fun x => k))
  (at level 61, c at next level, right associativity).

(* ================================================================= *)
(** ** The functions of simple-statistics (7.x) the utilities call *)

Module SS.

(** One turn of the loop of [sum]: Kahan-Babuska compensated summation. *)
Definition sum_step (st : num * num) (xi : num) : num * num :=
  let '(sum, correction) := st in
  let transition := add sum xi in
  let correction' :=
    if ge (Math_abs sum) (Math_abs xi)
    then add correction (add (sub sum transition) xi)
    else add correction (add (sub xi transition) sum) in
  (transition, correction').

(** [ss.sum(x)]. *)
Definition sum (x : list num) : num :=
  match x with
  | [] => Fin 0
  | x0 :: rest =>
      let '(s, correction) := fold_left sum_step rest (x0, Fin 0) in
      add s (mul correction (Fin 1))
  end.

(** [ss.mean(x)]. *)
Definition mean (x : list num) : completion num :=
  match x with
  | [] => Throw "Error" "mean requires at least one data point"
  | _ => Normal (div (sum x) (Fin (IZR (len x))))
  end.

(** [sumNthPowerDeviations(x, 2)]. *)
Definition sumNthPowerDeviations2 (x : list num) : completion num :=
  meanValue <- mean x ;;
  Normal (fold_left
            (fun acc xi =>
               let tempValue := sub xi meanValue in
               add acc (mul tempValue tempValue))
            x (Fin 0)).

(** [ss.variance(x)]: the population variance. *)
Definition variance (x : list num) : completion num :=
  match x with
  | [] => Throw "Error" "variance requires at least one data point"
  | _ =>
      s <- sumNthPowerDeviations2 x ;;
      Normal (div s (Fin (IZR (len x))))
  end.

(** [ss.standardDeviation(x)]: the population standard deviation. *)
Definition standardDeviation (x : list num) : completion num :=
  if (len x =? 1)%Z then Normal (Fin 0)
  else v <- variance x ;; Normal (Math_sqrt v).





End SS.

(* ================================================================= *)
(** ** quantAnalysis.js *)

Module QuantAnalysis.



(** [returns.reduce((acc, r) => acc * (1 + r), 1)]. *)
Definition compound (returns : list num) : num :=
  fold_left (fun acc r => mul acc (add (Fin 1) r)) returns (Fin 1).

(** [calculateAnnualizedReturn(returns, tradingDays)]. *)
Definition calculateAnnualizedReturn (returns : list num) (tradingDays : R)
  : completion num :=
  let totalReturn := sub (compound returns) (Fin 1) in
  let periods := div (Fin (IZR (len returns))) (Fin tradingDays) in
  Normal (sub (Math_pow (add (Fin 1) totalReturn) (div (Fin 1) periods))
              (Fin 1)).

(** [calculateVolatility(returns, tradingDays)]. *)
Definition calculateVolatility (returns : list num) (tradingDays : R)
  : completion num :=
  stdDev <- SS.standardDeviation returns ;;
  Normal (mul stdDev (Math_sqrt (Fin tradingDays))).

(** [calculateSharpeRatio(returns, riskFreeRate, tradingDays)]. *)
Definition calculateSharpeRatio (returns : list num)
    (riskFreeRate tradingDays : R) : completion num :=
  annualizedReturn <- calculateAnnualizedReturn returns tradingDays ;;
  annualizedVol <- calculateVolatility returns tradingDays ;;
  if seq annualizedVol (Fin 0) then Normal (Fin 0)
  else Normal (div (sub annualizedReturn (Fin riskFreeRate)) annualizedVol).

(** The [downsideReturns] array of [calculateSortinoRatio]. *)
Definition downsideReturns (returns : list num) (riskFreeRate tradingDays : R)
  : list num :=
  let dailyRiskFree := div (Fin riskFreeRate) (Fin tradingDays) in
  map (fun r => Math_pow (sub r dailyRiskFree) (Fin 2))
      (filter (fun r => lt r dailyRiskFree) returns).

(** The [downsideDeviation] of [calculateSortinoRatio]. *)
Definition downsideDeviation (returns : list num)
    (riskFreeRate tradingDays : R) : completion num :=
  m <- SS.mean (downsideReturns returns riskFreeRate tradingDays) ;;
  Normal (mul (Math_sqrt m) (Math_sqrt (Fin tradingDays))).

(** [calculateSortinoRatio(returns, riskFreeRate, tradingDays)]. *)
Definition calculateSortinoRatio (returns : list num)
    (riskFreeRate tradingDays : R) : completion num :=
  annualizedReturn <- calculateAnnualizedReturn returns tradingDays ;;
  if (len (downsideReturns returns riskFreeRate tradingDays) =? 0)%Z
  then Normal PInf
  else
    dd <- downsideDeviation returns riskFreeRate tradingDays ;;
    if seq dd (Fin 0) then Normal PInf
    else Normal (div (sub annualizedReturn (Fin riskFreeRate)) dd).

(** The object [calculateMaxDrawdown] returns. *)
Record drawdown : Type := mkDrawdown {
  maxDrawdown : num;
  peakIndex : Z;
  troughIndex : Z
}.

(** The local variables of [calculateMaxDrawdown]. *)
Record dd_state : Type := mkState {
  st_maxDrawdown : num;
  st_peak : num;
  st_peakIndex : Z;
  st_troughIndex : Z
}.

(** The body of the loop of [calculateMaxDrawdown] at index [i]. *)
Definition dd_step (prices : list num) (st : dd_state) (i : Z) : dd_state :=
  let raised := gt (get prices i) (st_peak st) in
  let peak := if raised then get prices i else st_peak st in
  let peakIdx := if raised then i else st_peakIndex st in
  let dd := div (sub peak (get prices i)) peak in
  if gt dd (st_maxDrawdown st)
  then mkState dd peak peakIdx i
  else mkState (st_maxDrawdown st) peak peakIdx (st_troughIndex st).

Definition dd_init (prices : list num) : dd_state :=
  mkState (Fin 0) (get prices 0) 0 0.

(** [calculateMaxDrawdown(prices)]. *)
Definition calculateMaxDrawdown (prices : list num) : completion drawdown :=
  let st := fold_left (dd_step prices) (range 1 (len prices))
                      (dd_init prices) in
  Normal (mkDrawdown (st_maxDrawdown st) (st_peakIndex st)
                     (st_troughIndex st)).

(** [calculateCovariance(x, y)]. *)
Definition calculateCovariance (x y : list num) : completion num :=
  meanX <- SS.mean x ;;
  meanY <- SS.mean y ;;
  let sum := fold_left
               (fun acc i => add acc (mul (sub (get x i) meanX)
                                          (sub (get y i) meanY)))
               (range 0 (len x)) (Fin 0) in
  Normal (div sum (Fin (IZR (len x - 1)))).

(** The truncated benchmark of [calculateBeta]. *)
Definition truncated (assetReturns benchmarkReturns series : list num)
  : list num :=
  slice series 0 (Z.min (len assetReturns) (len benchmarkReturns)).

(** [calculateBeta(assetReturns, benchmarkReturns)]. *)
Definition calculateBeta (assetReturns benchmarkReturns : list num)
  : completion num :=
  let asset := truncated assetReturns benchmarkReturns assetReturns in
  let benchmark := truncated assetReturns benchmarkReturns benchmarkReturns in
  covariance <- calculateCovariance asset benchmark ;;
  benchmarkVariance <- SS.variance benchmark ;;
  if seq benchmarkVariance (Fin 0) then Normal (Fin 0)
  else Normal (div covariance benchmarkVariance).

(** [calculateSMA(prices, period)]. *)
Definition calculateSMA (prices : list num) (period : Z)
  : completion (list num) :=
  Normal (map (fun i => div (reduce_add (slice prices (i - period + 1) (i + 1)))
                            (Fin (IZR period)))
              (range (period - 1) (len prices))).

(** The [gains] and [losses] arrays of [calculateRSI]. *)
Definition changes (prices : list num) : list num :=
  map (fun i => sub (get prices i) (get prices (i - 1)))
      (range 1 (len prices)).

Definition gains (prices : list num) : list num :=
  map (fun change => if gt change (Fin 0) then change else Fin 0)
      (changes prices).

Definition losses (prices : list num) : list num :=
  map (fun change => if lt change (Fin 0) then Math_abs change else Fin 0)
      (changes prices).

(** The initial averages of [calculateRSI]. *)
Definition initial_average (series : list num) (period : Z) : num :=
  div (reduce_add (slice series 0 period)) (Fin (IZR period)).

(** Wilder smoothing: the update of one average in the loop of
    [calculateRSI]. *)
Definition smooth (avg : num) (period : Z) (x : num) : num :=
  div (add (mul avg (Fin (IZR (period - 1)))) x) (Fin (IZR period)).

(** The value pushed for the smoothed averages [avgGain] and [avgLoss]. *)
Definition rsi_value (avgGain avgLoss : num) : num :=
  if seq avgLoss (Fin 0) then Fin 100
  else
    let rs := div avgGain avgLoss in
    sub (Fin 100) (div (Fin 100) (add (Fin 1) rs)).


(** The loop of [calculateRSI]: the values pushed to [rsi]. *)
Fixpoint rsi_loop (g l : list num) (period : Z) (indices : list Z)
    (avgGain avgLoss : num) : list num :=
  match indices with
  | [] => []
  | i :: rest =>
      let avgGain' := smooth avgGain period (get g i) in
      let avgLoss' := smooth avgLoss period (get l i) in
      rsi_value avgGain' avgLoss'
        :: rsi_loop g l period rest avgGain' avgLoss'
  end.

(** [calculateRSI(prices, period)]. *)
Definition calculateRSI (prices : list num) (period : Z)
  : completion (list num) :=
  let g := gains prices in
  let l := losses prices in
  Normal (rsi_loop g l period (range period (len g))
                   (initial_average g period) (initial_average l period)).


(** The cutoff index shared by [calculateVaR] and [calculateCVaR]. *)
Definition cutoff (returns : list num) (confidenceLevel : R) : Z :=
  Math_floor ((1 - confidenceLevel) * IZR (len (sort_ascending returns))).

(** [calculateVaR(returns, confidenceLevel)]. *)
Definition calculateVaR (returns : list num) (confidenceLevel : R)
  : completion num :=
  let sortedReturns := sort_ascending returns in
  let index := cutoff returns confidenceLevel in
  Normal (neg (get sortedReturns index)).

(** [calculateCVaR(returns, confidenceLevel)]. *)
Definition calculateCVaR (returns : list num) (confidenceLevel : R)
  : completion num :=
  let sortedReturns := sort_ascending returns in
  let cutoffIndex := cutoff returns confidenceLevel in
  let tailReturns := slice sortedReturns 0 (cutoffIndex + 1) in
  m <- SS.mean tailReturns ;;
  Normal (neg m).



(** [calculateAlpha(assetReturns, benchmarkReturns, riskFreeRate,
    tradingDays)]. *)
Definition calculateAlpha (assetReturns benchmarkReturns : list num)
    (riskFreeRate tradingDays : R) : completion num :=
  assetAnnualized <- calculateAnnualizedReturn assetReturns tradingDays ;;
  benchmarkAnnualized <-
    calculateAnnualizedReturn benchmarkReturns tradingDays ;;
  beta <- calculateBeta assetReturns benchmarkReturns ;;
  Normal (sub assetAnnualized
              (add (Fin riskFreeRate)
                   (mul beta (sub benchmarkAnnualized (Fin riskFreeRate))))).


(** The second loop of [calculateEMA]; [prev] is [ema[ema.length - 1]]. *)
Fixpoint ema_loop (prices : list num) (multiplier : num) (indices : list Z)
    (prev : num) : list num :=
  match indices with
  | [] => []
  | i :: rest =>
      let newEma := add (mul (sub (get prices i) prev) multiplier) prev in
      newEma :: ema_loop prices multiplier rest newEma
  end.

(** The seed of [calculateEMA]: the mean of the first [period] prices. *)
Definition ema_seed (prices : list num) (period : Z) : num :=
  let sum := fold_left (fun acc i => add acc (get prices i))
                       (range 0 period) (Fin 0) in
  div sum (Fin (IZR period)).

(** [calculateEMA(prices, period)]. *)
Definition calculateEMA (prices : list num) (period : Z)
  : completion (list num) :=
  let multiplier := div (Fin 2) (Fin (IZR (period + 1))) in
  let seed := ema_seed prices period in
  Normal (seed :: ema_loop prices multiplier (range period (len prices)) seed).






End QuantAnalysis.

Import QuantAnalysis.

(* ================================================================= *)
(** ** Basic facts about numbers and arrays *)

(** Settles the tests on real numbers left in a goal. *)
Ltac rdecide :=
  repeat match goal with
  | |- context [Req_dec_T ?a ?b] => destruct (Req_dec_T a b); try lra
  | |- context [Rlt_dec ?a ?b] => destruct (Rlt_dec a b); try lra
  end;
  try reflexivity.

Lemma len_map_Fin (l : list R) : len (map Fin l) = len l.
Proof. unfold len. now rewrite length_map. Qed.

Lemma len_nonneg {A : Type} (l : list A) : (0 <= len l)%Z.
Proof. unfold len. lia. Qed.

Lemma get_Fin (l : list R) (k : nat) :
  (k < List.length l)%nat ->
  get (map Fin l) (Z.of_nat k) = Fin (nth k l 0).
Proof.
  intros Hk. unfold get.
  destruct (Z.ltb_spec (Z.of_nat k) 0) as [Hneg | _]; [lia |].
  rewrite Nat2Z.id.
  rewrite (nth_indep _ NaN (Fin 0)) by now rewrite length_map.
  apply map_nth.
Qed.

Lemma range_empty (lo hi : Z) : (hi <= lo)%Z -> range lo hi = [].
Proof.
  intros H. unfold range.
  replace (Z.to_nat (hi - lo)) with 0%nat by lia. reflexivity.
Qed.

Lemma range_snoc (lo hi : Z) :
  (lo <= hi)%Z -> range lo (hi + 1) = range lo hi ++ [hi].
Proof.
  intros H. unfold range.
  replace (Z.to_nat (hi + 1 - lo)) with (Z.to_nat (hi - lo) + 1)%nat by lia.
  rewrite seq_app, map_app. cbn [List.seq map]. do 2 f_equal. lia.
Qed.

Lemma in_range (lo hi i : Z) : In i (range lo hi) <-> (lo <= i < hi)%Z.
Proof.
  unfold range. rewrite in_map_iff. split.
  - intros (k & <- & Hk). apply in_seq in Hk. lia.
  - intros Hi. exists (Z.to_nat (i - lo)). split; [lia |].
    apply in_seq. lia.
Qed.




(* ================================================================= *)
(** ** Return transforms *)









(* ================================================================= *)
(** ** simple-statistics on finite data *)

(** The plain sum, the mean and the two variances of a list of reals. *)
Fixpoint Rsum (l : list R) : R :=
  match l with
  | [] => 0
  | x :: rest => x + Rsum rest
  end.

Definition Rmean (l : list R) : R := Rsum l / IZR (len l).

Definition sum_squared_deviations (l : list R) : R :=
  Rsum (map (fun x => (x - Rmean l) * (x - Rmean l)) l).

(** Divisor [n]. *)
Definition population_variance (l : list R) : R :=
  sum_squared_deviations l / IZR (len l).

Definition population_standard_deviation (l : list R) : R :=
  sqrt (population_variance l).

(** Divisor [n - 1]. *)
Definition sample_variance (l : list R) : R :=
  sum_squared_deviations l / (IZR (len l) - 1).

Definition sample_standard_deviation (l : list R) : R :=
  sqrt (sample_variance l).

Lemma Rsum_nonneg (l : list R) : Forall (fun x => 0 <= x) l -> 0 <= Rsum l.
Proof.
  induction 1 as [| x l Hx _ IH]; cbn; lra.
Qed.

Lemma sum_squared_deviations_nonneg (l : list R) :
  0 <= sum_squared_deviations l.
Proof.
  apply Rsum_nonneg, Forall_forall. intros y Hy.
  apply in_map_iff in Hy. destruct Hy as (x & <- & _). cbv beta.
  pose proof (Rle_0_sqr (x - Rmean l)) as Hsq. unfold Rsqr in Hsq. exact Hsq.
Qed.

Lemma len_pos {A : Type} (l : list A) : l <> [] -> 0 < IZR (len l).
Proof.
  intros H. apply IZR_lt. unfold len. destruct l; [congruence | cbn; lia].
Qed.

Lemma population_variance_nonneg (l : list R) :
  l <> [] -> 0 <= population_variance l.
Proof.
  intros H. unfold population_variance.
  apply Rmult_le_pos; [apply sum_squared_deviations_nonneg |].
  left. apply Rinv_0_lt_compat. now apply len_pos.
Qed.

(** On finite data the compensation term of [sum] stays zero. *)
Lemma sum_loop_finite (rest : list R) (s : R) :
  fold_left SS.sum_step (map Fin rest) (Fin s, Fin 0) =
  (Fin (s + Rsum rest), Fin 0).
Proof.
  revert s. induction rest as [| x rest IH]; intros s; cbn [map fold_left Rsum].
  - do 2 f_equal. ring.
  - replace (SS.sum_step (Fin s, Fin 0) (Fin x)) with (Fin (s + x), Fin 0).
    + rewrite IH. do 2 f_equal. ring.
    + unfold SS.sum_step.
      destruct (ge (Math_abs (Fin s)) (Math_abs (Fin x)));
        cbn [add sub neg]; do 2 f_equal; ring.
Qed.

Lemma sum_finite (l : list R) : SS.sum (map Fin l) = Fin (Rsum l).
Proof.
  destruct l as [| x rest]; [reflexivity |].
  unfold SS.sum. cbn [map]. rewrite sum_loop_finite.
  cbn [add mul Rsum fold_right]. f_equal.
  ring.
Qed.

Lemma mean_finite (l : list R) :
  l <> [] -> SS.mean (map Fin l) = Normal (Fin (Rmean l)).
Proof.
  intros Hne. pose proof (len_pos l Hne) as Hn.
  destruct l as [| x rest]; [congruence |].
  unfold SS.mean. cbn [map]. change (Fin x :: map Fin rest) with (map Fin (x :: rest)).
  rewrite sum_finite, len_map_Fin. unfold div.
  destruct (Req_dec_T (IZR (len (x :: rest))) 0); [lra | reflexivity].
Qed.

Lemma deviations_loop_finite (l : list R) (m a : R) :
  fold_left (fun acc xi => let tempValue := sub xi (Fin m) in
                           add acc (mul tempValue tempValue))
            (map Fin l) (Fin a) =
  Fin (a + Rsum (map (fun x => (x - m) * (x - m)) l)).
Proof.
  revert a. induction l as [| x l IH]; intros a; cbn [map fold_left Rsum].
  - f_equal. ring.
  - cbn [sub neg add mul]. rewrite IH. f_equal.
    ring.
Qed.

Lemma variance_finite (l : list R) :
  l <> [] -> SS.variance (map Fin l) = Normal (Fin (population_variance l)).
Proof.
  intros Hne. pose proof (len_pos l Hne) as Hn.
  unfold SS.variance, SS.sumNthPowerDeviations2.
  rewrite mean_finite by exact Hne.
  destruct l as [| x rest]; [congruence |].
  cbn [map bind]. change (Fin x :: map Fin rest) with (map Fin (x :: rest)).
  rewrite deviations_loop_finite, len_map_Fin. unfold div.
  destruct (Req_dec_T (IZR (len (x :: rest))) 0); [lra |].
  do 2 f_equal. unfold population_variance, sum_squared_deviations. f_equal. ring.
Qed.

Lemma standardDeviation_finite (l : list R) :
  (2 <= List.length l)%nat ->
  SS.standardDeviation (map Fin l) =
  Normal (Fin (population_standard_deviation l)).
Proof.
  intros Hlen. assert (Hne : l <> []) by (destruct l; [cbn in Hlen; lia | congruence]).
  unfold SS.standardDeviation. rewrite len_map_Fin.
  destruct (Z.eqb_spec (len l) 1) as [E | _]; [unfold len in E; lia |].
  rewrite variance_finite by exact Hne. cbn [bind]. unfold Math_sqrt.
  pose proof (population_variance_nonneg l Hne).
  destruct (Rlt_dec (population_variance l) 0); [lra | reflexivity].
Qed.

Lemma calculateVolatility_finite (l : list R) (tradingDays : R) :
  (2 <= List.length l)%nat ->
  calculateVolatility (map Fin l) tradingDays =
  Normal (mul (Fin (population_standard_deviation l))
              (Math_sqrt (Fin tradingDays))).
Proof.
  intros Hlen. unfold calculateVolatility.
  now rewrite standardDeviation_finite.
Qed.

Lemma calculateVolatility_single (x : num) (tradingDays : R) :
  0 <= tradingDays -> calculateVolatility [x] tradingDays = Normal (Fin 0).
Proof.
  intros Htd. unfold calculateVolatility, SS.standardDeviation.
  cbn [len List.length Z.of_nat Pos.of_succ_nat Z.eqb Pos.eqb bind].
  unfold Math_sqrt. destruct (Rlt_dec tradingDays 0); [lra |].
  cbn [mul]. do 2 f_equal. ring.
Qed.

Lemma normal_not_throws {A : Type} (c : completion A) (a : A) (name : string) :
  c = Normal a -> ~ throws c name.
Proof. intros E [m Hm]. rewrite E in Hm. discriminate. Qed.

(* ================================================================= *)
(** ** Short inputs *)

(** C2, counterexample: with [period = 3] on two prices [calculateSMA]
    returns the empty array, and on a single return [calculateVolatility]
    returns 0; neither raises an InsufficientDataError. *)
Lemma short_input_raises_nothing :
  (calculateSMA [Fin 1; Fin 2] 3 = Normal [] /\
   ~ throws (calculateSMA [Fin 1; Fin 2] 3) "InsufficientDataError") /\
  (calculateVolatility [Fin 1] 252 = Normal (Fin 0) /\
   ~ throws (calculateVolatility [Fin 1] 252) "InsufficientDataError").
Proof.
  assert (E1 : calculateSMA [Fin 1; Fin 2] 3 = Normal []) by reflexivity.
  assert (E2 : calculateVolatility [Fin 1] 252 = Normal (Fin 0))
    by (apply calculateVolatility_single; lra).
  repeat split; try assumption; eapply normal_not_throws; eassumption.
Qed.

(** C2, as the code has it: [calculateSMA] returns the empty array, and
    raises nothing, whenever [period > prices.length]; [calculateVolatility]
    lets the generic [Error] of simple-statistics through on the empty
    array, and returns 0 on a one-element array when [tradingDays >= 0]. *)
Theorem short_input_behaviour :
  (forall prices period,
      (len prices < period)%Z -> calculateSMA prices period = Normal []) /\
  (forall tradingDays,
      calculateVolatility [] tradingDays =
      Throw "Error" "variance requires at least one data point") /\
  (forall x tradingDays,
      0 <= tradingDays -> calculateVolatility [x] tradingDays = Normal (Fin 0)).
Proof.
  repeat split.
  - intros prices period Hlt. unfold calculateSMA.
    rewrite range_empty by lia. reflexivity.
  - intros x td. now apply calculateVolatility_single.
Qed.

(** The theorem at [period = 3] on two prices and at one return. *)
Lemma short_input_behaviour_witness :
  calculateSMA [Fin 1; Fin 2] 3 = Normal [] /\
  calculateVolatility [Fin 1] 252 = Normal (Fin 0).
Proof.
  split.
  - apply (proj1 short_input_behaviour). cbn. lia.
  - apply (proj2 (proj2 short_input_behaviour)). lra.
Defined.

(* ================================================================= *)
(** ** Volatility *)

Lemma population_variance_0_2 : population_variance [0; 2] = 1.
Proof.
  unfold population_variance, sum_squared_deviations, Rmean.
  cbn [Rsum map len List.length Z.of_nat Pos.of_succ_nat Pos.succ]. lra.
Qed.

Lemma sample_variance_0_2 : sample_variance [0; 2] = 2.
Proof.
  unfold sample_variance, sum_squared_deviations, Rmean.
  cbn [Rsum map len List.length Z.of_nat Pos.of_succ_nat Pos.succ]. lra.
Qed.

(** C6, counterexample: on the returns [0, 2] the volatility is
    [sqrt 1 * sqrt 252], not the sample deviation [sqrt 2] times
    [sqrt 252]. *)
Lemma volatility_is_not_sample_deviation :
  calculateVolatility (map Fin [0; 2]) 252 <>
  Normal (mul (Fin (sample_standard_deviation [0; 2])) (Math_sqrt (Fin 252))).
Proof.
  rewrite calculateVolatility_finite by (cbn; lia).
  unfold population_standard_deviation, sample_standard_deviation.
  rewrite population_variance_0_2, sample_variance_0_2, sqrt_1.
  unfold Math_sqrt. destruct (Rlt_dec 252 0); [lra |].
  cbn [mul]. intros H. injection H as H.
  assert (H252 : 0 < sqrt 252) by (apply sqrt_lt_R0; lra).
  apply Rmult_eq_reg_r in H; [| lra].
  assert (H2 : sqrt 2 * sqrt 2 = 2) by (apply sqrt_sqrt; lra).
  rewrite <- H in H2. lra.
Qed.

(** C6, as the code has it: on two or more finite returns the volatility is
    the population standard deviation (divisor [n]) multiplied by
    [Math.sqrt(tradingDays)]. *)
Theorem volatility_is_population_deviation :
  forall (l : list R) (tradingDays : R),
    (2 <= List.length l)%nat ->
    calculateVolatility (map Fin l) tradingDays =
    Normal (mul (Fin (population_standard_deviation l))
                (Math_sqrt (Fin tradingDays))).
Proof.
  intros l td Hlen. now apply calculateVolatility_finite.
Qed.

(** The theorem at the returns [0, 2]. *)
Lemma volatility_is_population_deviation_witness :
  calculateVolatility (map Fin [0; 2]) 252 =
  Normal (mul (Fin (population_standard_deviation [0; 2]))
              (Math_sqrt (Fin 252))).
Proof.
  apply (volatility_is_population_deviation [0; 2] 252). cbn. lia.
Defined.

(* ================================================================= *)
(** ** Maximum drawdown *)


Lemma get_in_range (l : list R) (lo i : Z) :
  (0 <= lo)%Z -> In i (range lo (len l)) ->
  exists x, In x l /\ get (map Fin l) i = Fin x.
Proof.
  intros Hlo Hi. apply in_range in Hi. unfold len in Hi.
  exists (nth (Z.to_nat i) l 0). split.
  - apply nth_In. lia.
  - rewrite <- (Z2Nat.id i) at 1 by lia. apply get_Fin. lia.
Qed.






(** Runs one turn of the scan on known finite values. *)
Ltac dd_run :=
  unfold dd_step;
  repeat match goal with
         | |- context [get ?l ?i] =>
             let v := eval cbv [get map nth Z.ltb Z.compare Z.to_nat Pos.to_nat
                                Pos.iter_op Nat.add] in (get l i) in
             change (get l i) with v
         end;
  cbn [st_peak st_maxDrawdown st_peakIndex st_troughIndex];
  unfold gt, lt, sub, neg, add, div; rdecide;
  repeat match goal with
         | |- @eq dd_state _ _ => f_equal
         | |- @eq num (Fin _) (Fin _) => f_equal
         end;
  lra.

(** After the claim's words: the index of the running peak at the time the
    maximum drawdown was set. *)
Definition claimed_step (prices : list num) (s : dd_state * Z) (i : Z)
  : dd_state * Z :=
  let st' := dd_step prices (fst s) i in
  let dd := div (sub (st_peak st') (get prices i)) (st_peak st') in
  (st', if gt dd (st_maxDrawdown (fst s)) then st_peakIndex st' else snd s).

Definition peak_index_at_maximum (prices : list num) : Z :=
  snd (fold_left (claimed_step prices) (range 1 (len prices))
                 (dd_init prices, 0%Z)).

(** C3, the defect: on [100, 50, 200] the maximum drawdown 1/2 is set at
    the trough of index 1 under the running peak of index 0, yet the
    [peakIndex] returned is 2, the later peak that the scan kept tracking. *)
Theorem max_drawdown_reports_later_peak :
  calculateMaxDrawdown (map Fin [100; 50; 200]) =
  Normal (mkDrawdown (Fin (1 / 2)) 2 1) /\
  peak_index_at_maximum (map Fin [100; 50; 200]) = 0%Z.
Proof.
  assert (S1 : dd_step (map Fin [100; 50; 200])
                       (mkState (Fin 0) (Fin 100) 0 0) 1 =
               mkState (Fin (1 / 2)) (Fin 100) 0 1) by dd_run.
  assert (S2 : dd_step (map Fin [100; 50; 200])
                       (mkState (Fin (1 / 2)) (Fin 100) 0 1) 2 =
               mkState (Fin (1 / 2)) (Fin 200) 2 1) by dd_run.
  split.
  - unfold calculateMaxDrawdown.
    change (range 1 (len (map Fin [100; 50; 200]))) with [1%Z; 2%Z].
    change (dd_init (map Fin [100; 50; 200]))
      with (mkState (Fin 0) (Fin 100) 0 0).
    cbn [fold_left]. rewrite S1, S2. reflexivity.
  - unfold peak_index_at_maximum.
    change (range 1 (len (map Fin [100; 50; 200]))) with [1%Z; 2%Z].
    change (dd_init (map Fin [100; 50; 200]))
      with (mkState (Fin 0) (Fin 100) 0 0).
    cbn [fold_left]. unfold claimed_step at 2. cbn [fst snd]. rewrite S1.
    unfold claimed_step. cbn [fst snd]. rewrite S2.
    change (get (map Fin [100; 50; 200]) 1) with (Fin 50).
    change (get (map Fin [100; 50; 200]) 2) with (Fin 200).
    cbn [st_peak st_maxDrawdown st_peakIndex st_troughIndex].
    unfold gt, lt, sub, neg, add, div. rdecide.
Qed.

Lemma dd_scan_increasing (l : list R) (k : nat) :
  (forall i, (S i < List.length l)%nat -> nth i l 0 < nth (S i) l 0) ->
  (k < List.length l)%nat ->
  fold_left (dd_step (map Fin l)) (range 1 (Z.of_nat k + 1))
            (dd_init (map Fin l)) =
  mkState (Fin 0) (Fin (nth k l 0)) (Z.of_nat k) 0.
Proof.
  intros Hinc. induction k as [| k IH]; intros Hk.
  - rewrite range_empty by lia. cbn [fold_left]. unfold dd_init.
    pose proof (get_Fin l 0 Hk) as E. cbn [Z.of_nat] in E. now rewrite E.
  - replace (Z.of_nat (S k) + 1)%Z with (Z.of_nat k + 1 + 1)%Z by lia.
    rewrite range_snoc by lia. rewrite fold_left_app, IH by lia.
    cbn [fold_left]. unfold dd_step.
    replace (Z.of_nat k + 1)%Z with (Z.of_nat (S k)) by lia.
    rewrite get_Fin by exact Hk.
    cbn [st_peak st_maxDrawdown st_peakIndex st_troughIndex].
    pose proof (Hinc k Hk) as Hlt. unfold gt, lt.
    destruct (Rlt_dec (nth k l 0) (nth (S k) l 0)); [| contradiction].
    unfold sub, neg, add, div.
    destruct (Req_dec_T (nth (S k) l 0) 0) as [Hz | Hnz].
    + destruct (Req_dec_T (nth (S k) l 0 + - nth (S k) l 0) 0); [| lra].
      reflexivity.
    + replace ((nth (S k) l 0 + - nth (S k) l 0) / nth (S k) l 0) with 0
        by (field; exact Hnz).
      destruct (Rlt_dec 0 0); [lra | reflexivity].
Qed.

(** The part of C3 on rising prices: on a strictly increasing finite series
    the scan never records a drawdown, and the peak it reports is the last
    price. *)
Lemma max_drawdown_of_increasing_series (l : list R) :
  l <> [] ->
  (forall i, (S i < List.length l)%nat -> nth i l 0 < nth (S i) l 0) ->
  calculateMaxDrawdown (map Fin l) =
  Normal (mkDrawdown (Fin 0) (len l - 1) 0).
Proof.
  intros Hne Hinc. unfold calculateMaxDrawdown.
  assert (Hlen : (0 < List.length l)%nat)
    by (destruct l; [congruence | cbn; lia]).
  rewrite len_map_Fin.
  replace (len l) with (Z.of_nat (List.length l - 1) + 1)%Z
    by (unfold len; lia).
  rewrite dd_scan_increasing by (exact Hinc || lia).
  cbn [st_peak st_maxDrawdown st_peakIndex st_troughIndex].
  do 2 f_equal. lia.
Qed.

(* ================================================================= *)
(** ** Sorting finite data *)












(* ================================================================= *)
(** ** Value at risk *)












(* ================================================================= *)
(** ** Relative strength index *)

Lemma Forall_firstn {A : Type} (P : A -> Prop) (n : nat) (l : list A) :
  Forall P l -> Forall P (firstn n l).
Proof.
  intros H. revert n. induction H as [| x l Hx _ IH]; intros [| n]; cbn;
    constructor; auto.
Qed.

Lemma Forall_skipn {A : Type} (P : A -> Prop) (n : nat) (l : list A) :
  Forall P l -> Forall P (skipn n l).
Proof.
  intros H. revert n. induction H as [| x l Hx Hl IH]; intros [| n]; cbn;
    auto.
Qed.

Lemma slice_map {A B : Type} (f : A -> B) (l : list A) (start stop : Z) :
  slice (map f l) start stop = map f (slice l start stop).
Proof.
  unfold slice, len. rewrite length_map, skipn_map. apply firstn_map.
Qed.

Lemma Forall_slice {A : Type} (P : A -> Prop) (l : list A) (start stop : Z) :
  Forall P l -> Forall P (slice l start stop).
Proof. intros H. unfold slice. now apply Forall_firstn, Forall_skipn. Qed.

Lemma reduce_add_loop_finite (xs : list R) (a : R) :
  fold_left (fun u v => add u v) (map Fin xs) (Fin a) = Fin (a + Rsum xs).
Proof.
  revert a. induction xs as [| x xs IH]; intros a; cbn [map fold_left Rsum].
  - f_equal. ring.
  - cbn [add]. rewrite IH. f_equal. ring.
Qed.

Lemma reduce_add_finite (xs : list R) :
  reduce_add (map Fin xs) = Fin (Rsum xs).
Proof.
  unfold reduce_add. rewrite reduce_add_loop_finite. f_equal. ring.
Qed.

(** A loop that pushes a finite value at every index builds a finite
    array. *)
Lemma map_finite {I : Type} (P : R -> Prop) (f : I -> num) (indices : list I) :
  Forall (fun i => exists x, P x /\ f i = Fin x) indices ->
  exists xs, map f indices = map Fin xs /\ Forall P xs /\
             List.length xs = List.length indices.
Proof.
  induction 1 as [| i rest (x & Hx & Hf) _ (xs & Hmap & Hall & Hlen)].
  - exists []. repeat split. constructor.
  - exists (x :: xs). cbn [map List.length]. rewrite Hf, Hmap, Hlen.
    repeat split. now constructor.
Qed.









Lemma gains_losses_length (prices : list num) :
  len (gains prices) = len (losses prices).
Proof. unfold len, gains, losses. now rewrite !length_map. Qed.



(* ================================================================= *)
(** ** Sentinel values *)

Lemma seq_zero : seq (Fin 0) (Fin 0) = true.
Proof. unfold seq. rdecide. Qed.




Lemma slice_prefix_length {A : Type} (l : list A) (m : Z) :
  (0 <= m)%Z -> len (slice l 0 m) = Z.min m (len l).
Proof.
  intros Hm. unfold slice.
  destruct (Z.ltb_spec 0 0) as [? | _]; [lia |].
  destruct (Z.ltb_spec m 0) as [? | _]; [lia |].
  pose proof (len_nonneg l).
  replace (Z.to_nat (Z.min 0 (len l))) with 0%nat by lia.
  cbn [skipn]. unfold len in *. rewrite length_firstn. lia.
Qed.

Lemma mean_returns (x : list num) :
  x <> [] -> exists m, SS.mean x = Normal m.
Proof. destruct x; [congruence | intros _; eexists; reflexivity]. Qed.









(* ================================================================= *)
(** ** Moving averages *)









Lemma calculateSMA_length (prices : list num) (period : Z) :
  exists out,
    calculateSMA prices period = Normal out /\
    len out = Z.max 0 (len prices - period + 1).
Proof.
  eexists. split; [reflexivity |].
  unfold len at 1. rewrite length_map.
  pose proof (len_nonneg prices).
  unfold range. rewrite length_map, length_seq. lia.
Qed.



Lemma range_head (lo hi : Z) :
  (lo < hi)%Z -> range lo hi = lo :: range (lo + 1) hi.
Proof.
  intros H. unfold range.
  replace (Z.to_nat (hi - lo)) with (S (Z.to_nat (hi - (lo + 1)))) by lia.
  cbn [List.seq map]. f_equal; [lia |].
  rewrite <- seq_shift, map_map.
  apply map_ext. intros k. lia.
Qed.

Lemma get_cons_succ (x : num) (l : list num) (i : Z) :
  (0 <= i)%Z -> get (x :: l) (i + 1) = get l i.
Proof.
  intros Hi. unfold get.
  destruct (Z.ltb_spec (i + 1) 0) as [? | _]; [lia |].
  destruct (Z.ltb_spec i 0) as [? | _]; [lia |].
  replace (Z.to_nat (i + 1)) with (S (Z.to_nat i)) by lia. reflexivity.
Qed.

Lemma range_0_succ (n : nat) :
  range 0 (Z.of_nat (S n)) =
  0%Z :: map (fun i => (i + 1)%Z) (range 0 (Z.of_nat n)).
Proof.
  unfold range.
  replace (Z.to_nat (Z.of_nat (S n) - 0)) with (S n) by lia.
  replace (Z.to_nat (Z.of_nat n - 0)) with n by lia.
  cbn [List.seq map]. f_equal.
  rewrite <- seq_shift, !map_map. apply map_ext. intros k. lia.
Qed.

Lemma map_get_prefix (l : list num) (n : nat) :
  (n <= List.length l)%nat ->
  map (get l) (range 0 (Z.of_nat n)) = firstn n l.
Proof.
  revert n. induction l as [| x l IH]; intros n Hn.
  - cbn [List.length] in Hn. replace n with 0%nat by lia. reflexivity.
  - destruct n as [| n]; [reflexivity |].
    rewrite range_0_succ. cbn [map firstn]. f_equal.
    rewrite map_map. rewrite <- IH by (cbn [List.length] in Hn; lia).
    apply map_ext_in. intros i Hi. apply in_range in Hi.
    apply get_cons_succ. lia.
Qed.

Lemma fold_add_get (prices : list num) (indices : list Z) (a : num) :
  fold_left (fun acc i => add acc (get prices i)) indices a =
  fold_left (fun u v => add u v) (map (get prices) indices) a.
Proof.
  revert a. induction indices as [| i rest IH]; intros a; [reflexivity |].
  cbn [map fold_left]. apply IH.
Qed.

Lemma slice_prefix {A : Type} (l : list A) (n : Z) :
  (0 <= n <= len l)%Z -> slice l 0 n = firstn (Z.to_nat n) l.
Proof.
  intros Hn. unfold slice.
  destruct (Z.ltb_spec 0 0) as [? | _]; [lia |].
  destruct (Z.ltb_spec n 0) as [? | _]; [lia |].
  replace (Z.to_nat (Z.min 0 (len l))) with 0%nat by lia.
  replace (Z.to_nat (Z.max (Z.min n (len l) - Z.min 0 (len l)) 0))
    with (Z.to_nat n) by lia.
  reflexivity.
Qed.

(** The seed of the exponential average is the first simple average. *)
Lemma ema_seed_is_sma (prices : list num) (period : Z) :
  (1 <= period <= len prices)%Z ->
  ema_seed prices period =
  div (reduce_add (slice prices 0 period)) (Fin (IZR period)).
Proof.
  intros Hp. unfold ema_seed, reduce_add. f_equal.
  rewrite fold_add_get, slice_prefix by lia. f_equal.
  rewrite <- (Z2Nat.id period) at 1 by lia.
  apply map_get_prefix. unfold len in Hp. lia.
Qed.

Lemma ema_loop_length (prices : list num) (m : num) (indices : list Z)
    (prev : num) :
  List.length (ema_loop prices m indices prev) = List.length indices.
Proof.
  revert prev. induction indices as [| i rest IH]; intros prev;
    cbn [ema_loop List.length]; [reflexivity |].
  now rewrite IH.
Qed.

(** X3: [calculateEMA]: with [1 <= period <= length] it returns
    [length - period + 1] values, the first of which is the first value of
    [calculateSMA] for the same period. *)
Theorem ema_length_and_seed :
  forall (prices : list num) (period : Z),
    (1 <= period <= len prices)%Z ->
    exists ema sma,
      calculateEMA prices period = Normal ema /\
      calculateSMA prices period = Normal sma /\
      len ema = (len prices - period + 1)%Z /\
      nth 0 ema NaN = nth 0 sma NaN.
Proof.
  intros prices period Hp. eexists _, _.
  split; [reflexivity |]. split; [reflexivity |]. split.
  - unfold len at 1. cbn [List.length].
    rewrite ema_loop_length. unfold range.
    rewrite length_map, length_seq. lia.
  - cbn [nth]. rewrite ema_seed_is_sma by exact Hp.
    rewrite range_head by lia.
    cbn [map nth].
    replace (period - 1 - period + 1)%Z with 0%Z by lia.
    replace (period - 1 + 1)%Z with period by lia. reflexivity.
Qed.

(** The theorem at three prices and [period = 2]. *)
Lemma ema_length_and_seed_witness :
  exists ema sma,
    calculateEMA [Fin 10; Fin 11; Fin 12] 2 = Normal ema /\
    calculateSMA [Fin 10; Fin 11; Fin 12] 2 = Normal sma /\
    len ema = (len [Fin 10; Fin 11; Fin 12] - 2 + 1)%Z /\
    nth 0 ema NaN = nth 0 sma NaN.
Proof.
  apply (ema_length_and_seed [Fin 10; Fin 11; Fin 12] 2). cbn. lia.
Defined.

Lemma add_NaN_r (a : num) : add a NaN = NaN.
Proof. now destruct a. Qed.

Lemma fold_add_from_NaN (xs : list num) :
  fold_left (fun u v => add u v) xs NaN = NaN.
Proof. induction xs as [| x xs IH]; [reflexivity | exact IH]. Qed.

Lemma fold_add_hits_NaN (xs : list num) (a : num) :
  In NaN xs -> fold_left (fun u v => add u v) xs a = NaN.
Proof.
  revert a. induction xs as [| x xs IH]; intros a Hin; [destruct Hin |].
  cbn [fold_left]. destruct Hin as [-> | Hin].
  - rewrite add_NaN_r. apply fold_add_from_NaN.
  - now apply IH.
Qed.

Lemma get_beyond (prices : list num) (i : Z) :
  (len prices <= i)%Z -> get prices i = NaN.
Proof.
  intros Hi. unfold get. pose proof (len_nonneg prices).
  destruct (Z.ltb_spec i 0) as [? | _]; [reflexivity |].
  apply nth_overflow. unfold len in Hi. lia.
Qed.

(** X4: [calculateEMA] on too short a series: with [period > length] the seed
    loop reads past the end, and the result is the one-element array
    [[NaN]]; nothing is raised and the array is not empty. *)
Theorem ema_short_input_is_single_NaN :
  forall (prices : list num) (period : Z),
    (len prices < period)%Z ->
    calculateEMA prices period = Normal [NaN].
Proof.
  intros prices period Hp. pose proof (len_nonneg prices) as Hn.
  unfold calculateEMA. rewrite (range_empty period) by lia.
  cbn [ema_loop]. do 2 f_equal.
  unfold ema_seed. rewrite fold_add_get, fold_add_hits_NaN; [reflexivity |].
  apply in_map_iff. exists (len prices). split.
  - now apply get_beyond.
  - apply in_range. lia.
Qed.

(** The theorem at two prices and [period = 3]. *)
Lemma ema_short_input_is_single_NaN_witness :
  calculateEMA [Fin 10; Fin 11] 3 = Normal [NaN].
Proof.
  apply (ema_short_input_is_single_NaN [Fin 10; Fin 11] 3). cbn. lia.
Defined.

Lemma div_finite (a b : R) : b <> 0 -> div (Fin a) (Fin b) = Fin (a / b).
Proof.
  intros Hb. unfold div. destruct (Req_dec_T b 0); [contradiction | reflexivity].
Qed.





(* ================================================================= *)
(** ** Relative strength index on monotone prices *)

Lemma rsi_loop_length (g l : list num) (period : Z) (indices : list Z)
    (a b : num) :
  List.length (rsi_loop g l period indices a b) = List.length indices.
Proof.
  revert a b. induction indices as [| i rest IH]; intros a b;
    cbn [rsi_loop List.length]; [reflexivity |].
  now rewrite IH.
Qed.

Lemma calculateRSI_length (prices : list num) (period : Z) :
  exists out,
    calculateRSI prices period = Normal out /\
    len out = Z.max 0 (Z.max 0 (len prices - 1) - period).
Proof.
  eexists. split; [reflexivity |].
  unfold len at 1. rewrite rsi_loop_length.
  unfold gains, changes, len. rewrite !length_map.
  unfold range. rewrite !length_map, !length_seq. lia.
Qed.

(** X1: The lengths the indicators route relies on: whatever the prices and the
    integer [period], [calculateSMA] and [calculateRSI] raise nothing;
    [calculateSMA] returns [max 0 (length - period + 1)] values and
    [calculateRSI] returns [max 0 (max 0 (length - 1) - period)] values. *)
Theorem sma_and_rsi_lengths :
  forall (prices : list num) (period : Z),
    (exists out,
        calculateSMA prices period = Normal out /\
        len out = Z.max 0 (len prices - period + 1)) /\
    (exists out,
        calculateRSI prices period = Normal out /\
        len out = Z.max 0 (Z.max 0 (len prices - 1) - period)).
Proof.
  intros prices period.
  split; [apply calculateSMA_length | apply calculateRSI_length].
Qed.

Lemma changes_finite_such (P : R -> Prop) (l : list R) :
  (forall k, (S k < List.length l)%nat -> P (nth (S k) l 0 - nth k l 0)) ->
  exists cs, changes (map Fin l) = map Fin cs /\ Forall P cs.
Proof.
  intros HP. unfold changes. rewrite len_map_Fin.
  destruct (map_finite P
              (fun i => sub (get (map Fin l) i) (get (map Fin l) (i - 1)))
              (range 1 (len l))) as (cs & Hmap & Hall & _).
  - apply Forall_forall. intros i Hi. apply in_range in Hi. unfold len in Hi.
    set (k := Z.to_nat (i - 1)).
    assert (E1 : get (map Fin l) i = Fin (nth (S k) l 0)).
    { replace i with (Z.of_nat (S k)) by lia. apply get_Fin. lia. }
    assert (E2 : get (map Fin l) (i - 1) = Fin (nth k l 0)).
    { replace (i - 1)%Z with (Z.of_nat k) by lia. apply get_Fin. lia. }
    rewrite E1, E2. cbn [sub neg add].
    eexists. split; [| reflexivity]. apply HP. lia.
  - now exists cs.
Qed.

Lemma get_map_in_range {A : Type} (f : A -> num) (xs : list A) (lo i : Z) :
  (0 <= lo)%Z -> In i (range lo (len xs)) ->
  exists x, In x xs /\ get (map f xs) i = f x.
Proof.
  intros Hlo Hi. apply in_range in Hi. unfold len in Hi.
  destruct (nth_error xs (Z.to_nat i)) as [x |] eqn:E.
  - exists x. split; [eapply nth_error_In; eassumption |].
    unfold get. destruct (Z.ltb_spec i 0) as [? | _]; [lia |].
    apply nth_error_nth. now apply map_nth_error.
  - apply nth_error_None in E. lia.
Qed.

Lemma Rsum_zero (t : list R) : Forall (fun x => x = 0) t -> Rsum t = 0.
Proof. induction 1 as [| x t Hx _ IH]; cbn [Rsum]; lra. Qed.


Lemma initial_average_finite (xs : list R) (period : Z) :
  (1 <= period)%Z ->
  initial_average (map Fin xs) period =
  Fin (Rsum (slice xs 0 period) / IZR period).
Proof.
  intros Hp. unfold initial_average.
  rewrite slice_map, reduce_add_finite, div_finite; [reflexivity |].
  apply not_0_IZR. lia.
Qed.

Lemma smooth_finite (a x : R) (period : Z) :
  (1 <= period)%Z ->
  smooth (Fin a) period (Fin x) =
  Fin ((a * IZR (period - 1) + x) / IZR period).
Proof.
  intros Hp. unfold smooth. cbn [mul add].
  rewrite div_finite; [reflexivity |]. apply not_0_IZR. lia.
Qed.

Lemma rsi_value_zero_loss (g : num) : rsi_value g (Fin 0) = Fin 100.
Proof. unfold rsi_value. now rewrite seq_zero. Qed.


Lemma rsi_loop_no_loss (g : list num) (zs : list R) (period : Z)
    (indices : list Z) (a : num) :
  (1 <= period)%Z ->
  Forall (fun i => get (map Fin zs) i = Fin 0) indices ->
  Forall (fun v => v = Fin 100)
         (rsi_loop g (map Fin zs) period indices a (Fin 0)).
Proof.
  intros Hp Hidx. revert a.
  induction Hidx as [| i rest Hi _ IH]; intros a; cbn [rsi_loop];
    [constructor |].
  rewrite Hi, smooth_finite by exact Hp.
  replace ((0 * IZR (period - 1) + 0) / IZR period) with 0
    by (field; apply not_0_IZR; lia).
  constructor; [apply rsi_value_zero_loss | apply IH].
Qed.


(** X6: [calculateRSI] on prices that never fall: for finite non-decreasing
    prices and [period >= 1] every value returned is exactly 100. *)
Theorem rsi_of_rising_prices_is_100 :
  forall (l : list R) (period : Z),
    (1 <= period)%Z ->
    (forall k, (S k < List.length l)%nat -> nth k l 0 <= nth (S k) l 0) ->
    exists out,
      calculateRSI (map Fin l) period = Normal out /\
      Forall (fun v => v = Fin 100) out.
Proof.
  intros l period Hp Hmono.
  destruct (changes_finite_such (fun c => 0 <= c) l) as (cs & Hcs & Hall).
  { intros k Hk. specialize (Hmono k Hk). lra. }
  set (zs := map (fun _ : R => 0) cs).
  assert (Hzs : Forall (fun z => z = 0) zs).
  { apply Forall_forall. intros z Hz. apply in_map_iff in Hz.
    now destruct Hz as (c & <- & _). }
  assert (Hlosses : losses (map Fin l) = map Fin zs).
  { unfold losses, zs. rewrite Hcs, !map_map. apply map_ext_in.
    intros c Hc. rewrite Forall_forall in Hall. specialize (Hall c Hc).
    unfold lt. destruct (Rlt_dec c 0); [lra | reflexivity]. }
  assert (Hlen : len (gains (map Fin l)) = len zs).
  { rewrite gains_losses_length, Hlosses. apply len_map_Fin. }
  unfold calculateRSI. rewrite Hlosses, Hlen. eexists. split; [reflexivity |].
  rewrite (initial_average_finite zs) by exact Hp.
  rewrite (Rsum_zero (slice zs 0 period)) by now apply Forall_slice.
  replace (0 / IZR period) with 0 by (field; apply not_0_IZR; lia).
  apply rsi_loop_no_loss; [exact Hp |].
  apply Forall_forall. intros i Hi.
  destruct (get_in_range zs period i ltac:(lia) Hi) as (z & Hin & Hget).
  rewrite Forall_forall in Hzs. now rewrite Hget, (Hzs z Hin).
Qed.

(** The theorem at five rising prices and [period = 2]. *)
Lemma rsi_of_rising_prices_is_100_witness :
  exists out,
    calculateRSI (map Fin [10; 11; 11; 13; 14]) 2 = Normal out /\
    Forall (fun v => v = Fin 100) out.
Proof.
  apply (rsi_of_rising_prices_is_100 [10; 11; 11; 13; 14] 2).
  - lia.
  - intros k Hk. cbn [List.length] in Hk.
    do 4 (destruct k as [| k]; [cbn [nth]; lra |]). lia.
Defined.



(* ================================================================= *)
(** ** Bollinger bands *)














(* ================================================================= *)
(** ** MACD *)



Lemma get_Fin_Z (l : list R) (i : Z) :
  (0 <= i < len l)%Z -> get (map Fin l) i = Fin (nth (Z.to_nat i) l 0).
Proof.
  intros Hi. rewrite <- (Z2Nat.id i) at 1 by lia.
  apply get_Fin. unfold len in Hi. lia.
Qed.






(* ================================================================= *)
(** ** Covariance and beta *)

Lemma fold_add_map {I : Type} (F : I -> num) (indices : list I) (a : num) :
  fold_left (fun acc i => add acc (F i)) indices a =
  fold_left (fun u v => add u v) (map F indices) a.
Proof.
  revert a. induction indices as [| i rest IH]; intros a; [reflexivity |].
  cbn [map fold_left]. apply IH.
Qed.

(** The sum of cross deviations and the sample covariance of two finite
    series, read index by index as [calculateCovariance] does. *)
Definition Rcross (xs ys : list R) : R :=
  Rsum (map (fun i => (nth (Z.to_nat i) xs 0 - Rmean xs)
                      * (nth (Z.to_nat i) ys 0 - Rmean ys))
            (range 0 (len xs))).


Lemma covariance_sum_finite (xs ys : list R) :
  (len xs <= len ys)%Z ->
  fold_left (fun acc i => add acc (mul (sub (get (map Fin xs) i) (Fin (Rmean xs)))
                                       (sub (get (map Fin ys) i) (Fin (Rmean ys)))))
            (range 0 (len xs)) (Fin 0) =
  Fin (Rcross xs ys).
Proof.
  intros Hlen.
  rewrite (fold_add_map
             (fun i => mul (sub (get (map Fin xs) i) (Fin (Rmean xs)))
                           (sub (get (map Fin ys) i) (Fin (Rmean ys))))).
  replace (map _ (range 0 (len xs)))
    with (map Fin (map (fun i => (nth (Z.to_nat i) xs 0 - Rmean xs)
                                 * (nth (Z.to_nat i) ys 0 - Rmean ys))
                       (range 0 (len xs)))).
  - change (fold_left (fun u v => add u v) ?l (Fin 0)) with (reduce_add l).
    apply reduce_add_finite.
  - rewrite map_map. apply map_ext_in. intros i Hi. apply in_range in Hi.
    rewrite !get_Fin_Z by lia. reflexivity.
Qed.



Lemma Rsum_scale (c : R) (t : list R) :
  Rsum (map (fun x => c * x) t) = c * Rsum t.
Proof. induction t as [| x t IH]; cbn [map Rsum]; [ring | rewrite IH; ring]. Qed.






Lemma mul_NaN_r (a : num) : mul a NaN = NaN.
Proof. now destruct a. Qed.

(** X11: [calculateCovariance] on degenerate input: an empty array lets the
    [Error] of [ss.mean] through; one finite observation on each side gives
    NaN (0 / 0); a second array shorter than the first (and not empty) is
    read past its end and gives NaN as well. *)
Theorem covariance_edge_cases :
  (forall x y : list num,
      x = [] \/ y = [] -> throws (calculateCovariance x y) "Error") /\
  (forall x y : R, calculateCovariance [Fin x] [Fin y] = Normal NaN) /\
  (forall x y : list num,
      (0 < len y < len x)%Z -> calculateCovariance x y = Normal NaN).
Proof.
  split; [| split].
  - intros x y [-> | ->].
    + eexists. reflexivity.
    + destruct x; eexists; reflexivity.
  - intros x y. unfold calculateCovariance.
    change [Fin x] with (map Fin [x]). change [Fin y] with (map Fin [y]).
    rewrite !mean_finite by discriminate. cbn [bind].
    rewrite len_map_Fin, covariance_sum_finite by (cbn; lia).
    assert (E : Rcross [x] [y] = 0).
    { unfold Rcross, Rmean.
      change (range 0 (len [x])) with [0%Z].
      cbn [map Rsum nth Z.to_nat len List.length Z.of_nat Pos.of_succ_nat].
      field. }
    rewrite E. change (len [x] - 1)%Z with 0%Z.
    unfold div. rdecide.
  - intros x y Hlen. unfold calculateCovariance.
    destruct (mean_returns x) as (mx & ->); [intros ->; cbn in Hlen; lia |].
    destruct (mean_returns y) as (my & ->); [intros ->; cbn in Hlen; lia |].
    cbn [bind].
    rewrite (fold_add_map (fun i => mul (sub (get x i) mx) (sub (get y i) my))).
    rewrite fold_add_hits_NaN; [reflexivity |].
    apply in_map_iff. exists (len y). split.
    + rewrite (get_beyond y) by lia. cbn [sub add]. apply mul_NaN_r.
    + apply in_range. lia.
Qed.

(** The theorem at an empty array and at arrays of lengths 3 and 2. *)
Lemma covariance_edge_cases_witness :
  throws (calculateCovariance [] [Fin 1]) "Error" /\
  calculateCovariance [Fin 1; Fin 2; Fin 3] [Fin 1; Fin 2] = Normal NaN.
Proof.
  split.
  - apply (proj1 covariance_edge_cases). now left.
  - apply (proj2 (proj2 covariance_edge_cases)). cbn. lia.
Defined.









Lemma variance_returns (x : list num) :
  x <> [] -> exists v, SS.variance x = Normal v.
Proof.
  intros Hne. destruct (mean_returns x Hne) as (m & Em).
  destruct x; [congruence |].
  unfold SS.variance, SS.sumNthPowerDeviations2. rewrite Em. cbn [bind].
  eexists. reflexivity.
Qed.

Lemma nil_of_len_zero {A : Type} (l : list A) : len l = 0%Z -> l = [].
Proof. destruct l; [reflexivity | unfold len; cbn; lia]. Qed.

Lemma truncated_empty (a b : list num) :
  a = [] \/ b = [] -> truncated a b a = [].
Proof.
  intros H. apply nil_of_len_zero.
  pose proof (len_nonneg a). pose proof (len_nonneg b).
  unfold truncated. rewrite slice_prefix_length by lia.
  destruct H as [-> | ->]; cbn; lia.
Qed.

Lemma truncated_nonempty (a b s : list num) :
  a <> [] -> b <> [] -> s <> [] -> truncated a b s <> [].
Proof.
  intros Ha Hb Hs E. apply (f_equal len) in E.
  pose proof (len_pos a Ha) as Pa. pose proof (len_pos b Hb) as Pb.
  pose proof (len_pos s Hs) as Ps.
  apply lt_IZR in Pa, Pb, Ps.
  unfold truncated in E. rewrite slice_prefix_length in E by lia.
  cbn in E. lia.
Qed.

(** X13: [calculateBeta] and [calculateAlpha] raise the [Error] of [ss.mean]
    exactly when one of the two arrays is empty; on two non-empty arrays
    both return a number. *)
Theorem beta_and_alpha_raise_exactly_on_empty_input :
  forall (a b : list num) (riskFreeRate tradingDays : R),
    (a = [] \/ b = [] ->
     throws (calculateBeta a b) "Error" /\
     throws (calculateAlpha a b riskFreeRate tradingDays) "Error") /\
    (a <> [] -> b <> [] ->
     (exists v, calculateBeta a b = Normal v) /\
     (exists v, calculateAlpha a b riskFreeRate tradingDays = Normal v)).
Proof.
  intros a b rf td. split.
  - intros H.
    assert (Hbeta : throws (calculateBeta a b) "Error").
    { unfold calculateBeta, calculateCovariance.
      rewrite (truncated_empty a b H). eexists. reflexivity. }
    split; [exact Hbeta |].
    destruct Hbeta as (m & Em). unfold calculateAlpha, calculateAnnualizedReturn.
    cbn [bind]. rewrite Em. eexists. reflexivity.
  - intros Ha Hb.
    assert (Hbeta : exists v, calculateBeta a b = Normal v).
    { unfold calculateBeta, calculateCovariance.
      destruct (mean_returns (truncated a b a)) as (mx & ->);
        [now apply truncated_nonempty |].
      destruct (mean_returns (truncated a b b)) as (my & ->);
        [now apply truncated_nonempty |].
      cbn [bind].
      destruct (variance_returns (truncated a b b)) as (v & ->);
        [now apply truncated_nonempty |].
      cbn [bind]. destruct (seq v (Fin 0)); eexists; reflexivity. }
    split; [exact Hbeta |].
    destruct Hbeta as (v & Ev). unfold calculateAlpha, calculateAnnualizedReturn.
    cbn [bind]. rewrite Ev. eexists. reflexivity.
Qed.

(** The theorem at an empty benchmark and at two one-element arrays. *)
Lemma beta_and_alpha_raise_exactly_on_empty_input_witness :
  (throws (calculateBeta [Fin 1] []) "Error" /\
   throws (calculateAlpha [Fin 1] [] (2 / 100) 252) "Error") /\
  ((exists v, calculateBeta [Fin 1] [Fin 2] = Normal v) /\
   (exists v, calculateAlpha [Fin 1] [Fin 2] (2 / 100) 252 = Normal v)).
Proof.
  split.
  - apply (proj1 (beta_and_alpha_raise_exactly_on_empty_input
                    [Fin 1] [] (2 / 100) 252)). now right.
  - apply (proj2 (beta_and_alpha_raise_exactly_on_empty_input
                    [Fin 1] [Fin 2] (2 / 100) 252)); discriminate.
Defined.

(* ================================================================= *)
(** ** Tail risk: edge cases and bounds *)

Lemma var_and_cvar_on_empty (c : R) :
  calculateVaR [] c = Normal NaN /\ throws (calculateCVaR [] c) "Error".
Proof.
  assert (Hcut : cutoff [] c = 0%Z).
  { unfold cutoff, Math_floor. cbn [sort_ascending fold_right len List.length
                                     Z.of_nat].
    replace ((1 - c) * 0) with 0 by ring. apply (ZfloorZ 0). }
  split.
  - unfold calculateVaR. now rewrite Hcut.
  - unfold calculateCVaR. rewrite Hcut. eexists. reflexivity.
Qed.







(* ================================================================= *)
(** ** Annualized return, volatility and the Sharpe ratio *)

(** X14: The risk measures on the empty array, whatever the other arguments:
    [calculateSharpeRatio] lets the [Error] of [ss.variance] through and
    [calculateCVaR] that of [ss.mean], while [calculateSortinoRatio]
    returns +Infinity and [calculateVaR] returns NaN, both without
    raising. *)
Theorem risk_measures_on_empty_returns :
  forall riskFreeRate tradingDays confidenceLevel : R,
    throws (calculateSharpeRatio [] riskFreeRate tradingDays) "Error" /\
    calculateSortinoRatio [] riskFreeRate tradingDays = Normal PInf /\
    calculateVaR [] confidenceLevel = Normal NaN /\
    throws (calculateCVaR [] confidenceLevel) "Error".
Proof.
  intros rf td c. split; [eexists; reflexivity |].
  split; [reflexivity | apply var_and_cvar_on_empty].
Qed.



















(* ================================================================= *)
(** ** Maximum drawdown: what the scan computes *)

Lemma dd_step_peak (prices : list num) (st : dd_state) (i : Z) :
  st_peak (dd_step prices st i) =
  (if gt (get prices i) (st_peak st) then get prices i else st_peak st) /\
  st_peakIndex (dd_step prices st i) =
  (if gt (get prices i) (st_peak st) then i else st_peakIndex st).
Proof.
  unfold dd_step.
  destruct (gt (div (sub (if gt (get prices i) (st_peak st)
                          then get prices i else st_peak st) (get prices i))
                    (if gt (get prices i) (st_peak st)
                     then get prices i else st_peak st))
               (st_maxDrawdown st)); split; reflexivity.
Qed.

(** The running peak after the prices of index [0..k]: the first position
    of their maximum. *)
Definition first_maximum (l : list R) (k pk : nat) : Prop :=
  (pk <= k)%nat /\
  (forall i, (i <= k)%nat -> nth i l 0 <= nth pk l 0) /\
  (forall i, (i < pk)%nat -> nth i l 0 < nth pk l 0).

Lemma dd_scan_peak (l : list R) (k : nat) :
  (k < List.length l)%nat ->
  exists pk,
    let st := fold_left (dd_step (map Fin l)) (range 1 (Z.of_nat k + 1))
                        (dd_init (map Fin l)) in
    st_peak st = Fin (nth pk l 0) /\
    st_peakIndex st = Z.of_nat pk /\
    first_maximum l k pk.
Proof.
  induction k as [| k IH]; intros Hk.
  - exists 0%nat. rewrite range_empty by lia. cbn [fold_left]. unfold dd_init.
    cbn [st_peak st_peakIndex].
    pose proof (get_Fin l 0 Hk) as E. cbn [Z.of_nat] in E. rewrite E.
    repeat split; try reflexivity.
    + intros i Hi. replace i with 0%nat by lia. lra.
    + intros i Hi. lia.
  - destruct (IH ltac:(lia)) as (pk & Hpeak & Hidx & Hle & Hmax & Hfirst).
    cbv zeta in *.
    replace (Z.of_nat (S k) + 1)%Z with (Z.of_nat k + 1 + 1)%Z by lia.
    rewrite range_snoc by lia. rewrite fold_left_app. cbn [fold_left].
    set (st := fold_left (dd_step (map Fin l)) (range 1 (Z.of_nat k + 1))
                         (dd_init (map Fin l))) in *.
    destruct (dd_step_peak (map Fin l) st (Z.of_nat k + 1)) as [Ep Ei].
    rewrite Ep, Ei, Hpeak, Hidx.
    replace (Z.of_nat k + 1)%Z with (Z.of_nat (S k)) by lia.
    rewrite get_Fin by exact Hk. unfold gt, lt.
    destruct (Rlt_dec (nth pk l 0) (nth (S k) l 0)) as [Hlt | Hge].
    + exists (S k). repeat split; try reflexivity; try lia.
      * intros i Hi. destruct (Nat.eq_dec i (S k)) as [-> | Hne]; [lra |].
        specialize (Hmax i ltac:(lia)). lra.
      * intros i Hi. specialize (Hmax i ltac:(lia)). lra.
    + exists pk. repeat split; try reflexivity; try lia.
      * intros i Hi. destruct (Nat.eq_dec i (S k)) as [-> | Hne]; [lra |].
        apply Hmax. lia.
      * exact Hfirst.
Qed.

(** X21: What [peakIndex] is: on a non-empty finite series [calculateMaxDrawdown]
    reports as [peakIndex] the first position of the highest price of the
    whole series, whether or not the maximum drawdown was measured from
    it. *)
Theorem max_drawdown_peak_index_is_first_global_maximum :
  forall l : list R,
    l <> [] ->
    exists d pk troughIdx,
      calculateMaxDrawdown (map Fin l) =
      Normal (mkDrawdown d (Z.of_nat pk) troughIdx) /\
      (pk < List.length l)%nat /\
      (forall i, (i < List.length l)%nat -> nth i l 0 <= nth pk l 0) /\
      (forall i, (i < pk)%nat -> nth i l 0 < nth pk l 0).
Proof.
  intros l Hne.
  assert (Hlen : (0 < List.length l)%nat)
    by (destruct l; [congruence | cbn; lia]).
  destruct (dd_scan_peak l (List.length l - 1) ltac:(lia))
    as (pk & _ & Hidx & Hle & Hmax & Hfirst).
  cbv zeta in Hidx.
  replace (Z.of_nat (List.length l - 1) + 1)%Z with (len (map Fin l)) in Hidx
    by (rewrite len_map_Fin; unfold len; lia).
  unfold calculateMaxDrawdown. rewrite Hidx.
  eexists _, pk, _. split; [reflexivity |].
  split; [lia |]. split; [| exact Hfirst].
  intros i Hi. apply Hmax. lia.
Qed.

(** The theorem at the series [100, 50, 200, 200]. *)
Lemma max_drawdown_peak_index_is_first_global_maximum_witness :
  exists d pk troughIdx,
    calculateMaxDrawdown (map Fin [100; 50; 200; 200]) =
    Normal (mkDrawdown d (Z.of_nat pk) troughIdx) /\
    (pk < List.length [100; 50; 200; 200])%nat /\
    (forall i, (i < List.length [100; 50; 200; 200])%nat ->
               nth i [100; 50; 200; 200] 0 <= nth pk [100; 50; 200; 200] 0) /\
    (forall i, (i < pk)%nat ->
               nth i [100; 50; 200; 200] 0 < nth pk [100; 50; 200; 200] 0).
Proof.
  apply (max_drawdown_peak_index_is_first_global_maximum [100; 50; 200; 200]).
  discriminate.
Defined.






(* ================================================================= *)
(** ** Returns of a price series, read pair by pair *)


















(* ================================================================= *)
(** ** The risk routes: the price path rebuilt from portfolio returns *)

Module RiskRoutes.



End RiskRoutes.

Import RiskRoutes.








(* ================================================================= *)
(** ** models/Portfolio.js: the methods of the portfolio document

    Only the paths the methods read or write are kept ([cashBalance],
    [holdings], [transactions]).  Numbers and dates are stored as given.
    [String.prototype.toUpperCase] and the cast Mongoose applies to a
    [symbol] path when a sub-document is pushed (the [uppercase] and [trim]
    setters of the schema) are outside the repository: they are
    parameters. *)

Module Portfolio.












Section AddTransaction.

Variable toUpperCase : string -> string.
Variable castSymbol : string -> string.






End AddTransaction.

End Portfolio.

(* ================================================================= *)
(** ** The portfolio document: allocation *)






(* ================================================================= *)
(** ** The portfolio document: transactions *)





Section Transactions.

Variable toUpperCase : string -> string.
Variable castSymbol : string -> string.






End Transactions.



(* ================================================================= *)
(** ** Correlation *)











(* ================================================================= *)
(** ** The portfolio document: an invariant of the holdings *)




Section HoldingsInvariant.

Variable toUpperCase : string -> string.
Variable castSymbol : string -> string.



End HoldingsInvariant.

